(** * Read keys of strelka's starling_common: identity and rendering

    A shallow embedding of [starling_common/starling_read_key.cpp], the
    stream-insertion operator of [read_key], together with the value
    operations ([make], [equals], [compare], [render]) that the
    specification builds around it.

    Output streams and keys are C++ objects reached through references, so
    they live in a store ([world]) and the operator is a computation in a
    state-and-failure monad over that store.

    The streams of the store are string streams in the state their
    constructor leaves them in and that only the inserters below write to:
    no error bit, default format flags (decimal base, no sign for positive
    numbers, no field width), the classic locale, a buffer of their own
    written at its end.  What a call writes is therefore stated for the
    rendering of a key, which runs the operator on a string stream it has
    just constructed. *)

From Stdlib Require Import ZArith NArith Ascii String.
From stdpp Require Import gmap strings.

(** ** Decimal rendering of integers

    What [std::ostream::operator<<(int)] emits with default flags: an
    optional minus sign followed by the digits, most significant first,
    without leading zeros. *)

Module Decimal.

Definition digit (d : N) : ascii := ascii_of_N (48 + d).

(** Digits are produced from the least significant one and pushed in
    front of what has been produced so far. *)
Fixpoint put_digits (fuel : nat) (n : N) (acc : string) : string :=
  match fuel with
  | O => acc
  | S fuel' =>
      let acc' := String (digit (n mod 10)) acc in
      if (n / 10 =? 0)%N then acc' else put_digits fuel' (n / 10) acc'
  end.

Definition of_N (n : N) : string :=
  put_digits (S (N.to_nat (N.log2 n))) n EmptyString.

Definition of_Z (z : Z) : string :=
  match z with
  | Z0 => of_N 0
  | Zpos p => of_N (Npos p)
  | Zneg p => String "-" (of_N (Npos p))
  end.

(** Reading a numeral back, used to state that [of_Z] is the ordinary
    decimal notation. *)
Definition digit_value (c : ascii) : option N :=
  let n := N_of_ascii c in
  if ((48 <=? n) && (n <=? 57))%N then Some (n - 48)%N else None.

Fixpoint read_digits (s : string) (acc : N) : option N :=
  match s with
  | EmptyString => Some acc
  | String c s' =>
      match digit_value c with
      | Some d => read_digits s' (10 * acc + d)%N
      | None => None
      end
  end.

Definition to_N (s : string) : option N :=
  match s with
  | EmptyString => None
  | _ => read_digits s 0%N
  end.

Definition to_Z (s : string) : option Z :=
  match s with
  | String "-" s' => (λ n, Z.opp (Z.of_N n)) <$> to_N s'
  | _ => Z.of_N <$> to_N s
  end.

End Decimal.

(** ** The store: streams and keys behind references *)

Definition addr := positive.

(** A [std::ostringstream] in its default state, as the characters written
    to it. *)
Record ostream := Ostream { str : string }.

(** [read_key] as the operator sees it through its two accessors:
    [qname()] yields the query name and [read_no()] an [int]. *)
Record read_key := ReadKey { qname : string; read_no : Z }.

Record world := World {
  streams : gmap addr ostream;
  keys : gmap addr read_key
}.

(** Computations over the store; [None] is a use of a dangling reference. *)
Definition M (A : Type) : Type := world → option (A * world).

#[global] Instance M_ret : MRet M := λ A x w, Some (x, w).
#[global] Instance M_bind : MBind M := λ A B f m w,
  match m w with
  | Some (x, w') => f x w'
  | None => None
  end.

(** Appending formatted output to the stream behind [os]; like every
    standard inserter it hands back the reference it was given. *)
Definition put (os : addr) (s : string) : M addr := λ w,
  match streams w !! os with
  | Some o => Some (os, World (<[os := Ostream (str o +:+ s)]> (streams w)) (keys w))
  | None => None
  end.

Definition ins_string (os : addr) (s : string) : M addr := put os s.
Definition ins_char (os : addr) (c : ascii) : M addr := put os (String c EmptyString).
Definition ins_int (os : addr) (n : Z) : M addr := put os (Decimal.of_Z n).

(** The const accessors [rk.qname()] and [rk.read_no()]. *)
Definition get_qname (rk : addr) : M string := λ w,
  match keys w !! rk with
  | Some k => Some (qname k, w)
  | None => None
  end.

Definition get_read_no (rk : addr) : M Z := λ w,
  match keys w !! rk with
  | Some k => Some (read_no k, w)
  | None => None
  end.

(** ** The source operator

<<
    std::ostream&
    operator<<(std::ostream& os, const read_key& rk) {
        os << rk.qname() << '/' << rk.read_no();
        return os;
    }
>>
    The insertions associate to the left, each one applied to the reference
    returned by the previous one. *)
Definition operator_ltlt (os rk : addr) : M addr :=
  q ← get_qname rk;
  os1 ← ins_string os q;
  os2 ← ins_char os1 "/";
  n ← get_read_no rk;
  _ ← ins_int os2 n;
  mret os.

(** [std::ostringstream oss;] and [oss.str()]. *)
Definition new_ostringstream : M addr := λ w,
  let os := fresh (dom (streams w)) in
  Some (os, World (<[os := Ostream EmptyString]> (streams w)) (keys w)).

Definition get_str (os : addr) : M string := λ w,
  match streams w !! os with
  | Some o => Some (str o, w)
  | None => None
  end.

(** ** The value type of the specification *)

(** Modelled from the spec: the enumeration of read numbers and its integer
    encoding; the header declaring them is not part of the sources. *)
Inductive read_no_t := UNKNOWN_OR_UNPAIRED | FIRST_MATE | SECOND_MATE.

Definition read_no_as_integer (r : read_no_t) : Z :=
  match r with
  | UNKNOWN_OR_UNPAIRED => 0
  | FIRST_MATE => 1
  | SECOND_MATE => 2
  end.

Definition variant_of (n : Z) : option read_no_t :=
  match n with
  | 0%Z => Some UNKNOWN_OR_UNPAIRED
  | 1%Z => Some FIRST_MATE
  | 2%Z => Some SECOND_MATE
  | _ => None
  end.

Inductive error := InvalidArgument.

(** Modelled from the spec: construction, which rejects the empty query
    name; the constructor of [read_key] is not part of the sources. *)
Definition make (q : string) (r : read_no_t) : error + read_key :=
  match q with
  | EmptyString => inl InvalidArgument
  | _ => inr (ReadKey q (read_no_as_integer r))
  end.

(** A key as [make] builds them. *)
Definition valid (k : read_key) : Prop :=
  qname k ≠ EmptyString ∧ is_Some (variant_of (read_no k)).

(** Modelled from the spec: structural equality; the comparison operators
    of [read_key] are not part of the sources. *)
Definition equals (a b : read_key) : bool :=
  String.eqb (qname a) (qname b) && Z.eqb (read_no a) (read_no b).

(** Modelled from the spec: the order, lexicographic on the query name
    (byte-wise) and then on the integer encoding of the read number. *)
Definition compare (a b : read_key) : comparison :=
  match String.compare (qname a) (qname b) with
  | Eq => Z.compare (read_no a) (read_no b)
  | c => c
  end.

(** Rendering is the source operator run on a string stream of its own:
    [std::ostringstream oss; oss << rk; return oss.str();]. *)
Definition render_at (rk : addr) : M string :=
  os ← new_ostringstream;
  _ ← operator_ltlt os rk;
  get_str os.

Definition render (k : read_key) : option string :=
  fst <$> render_at 1%positive (World ∅ {[1%positive := k]}).

(** The comparison operations called on keys held by reference. *)
Definition get_key (rk : addr) : M read_key := λ w,
  match keys w !! rk with
  | Some k => Some (k, w)
  | None => None
  end.

Definition equals_at (a b : addr) : M bool :=
  ka ← get_key a; kb ← get_key b; mret (equals ka kb).

Definition compare_at (a b : addr) : M comparison :=
  ka ← get_key a; kb ← get_key b; mret (compare ka kb).

(** The text the operator writes for a key. *)
Definition rendering (k : read_key) : string :=
  qname k +:+ "/" +:+ Decimal.of_Z (read_no k).

(** A store with one stream that already holds some text and two keys, the
    second one with an empty query name and a read number outside 0..2. *)
Definition sample_world : world :=
  World {[1%positive := Ostream "read "]}
        {[1%positive := ReadKey "SRR000001.123" 1;
          2%positive := ReadKey EmptyString (-7)]}.

(** Whether a character occurs in a text. *)
Fixpoint occurs (c : ascii) (s : string) : bool :=
  match s with
  | EmptyString => false
  | String c' s' => Ascii.eqb c c' || occurs c s'
  end.

(** The values of a 32-bit [int]. *)
Definition int_range (n : Z) : Prop := (- 2 ^ 31 ≤ n < 2 ^ 31)%Z.

(** A numeral in canonical form: not empty, no zero in front of other
    digits, no minus sign in front of zero.  With [Decimal.to_Z] it tells
    the ordinary decimal notation of a number from its other spellings. *)
Definition canonical_N (s : string) : bool :=
  match s with
  | EmptyString => false
  | String c s' => negb (Ascii.eqb c "0") || String.eqb s' EmptyString
  end.

Definition canonical (s : string) : bool :=
  match s with
  | EmptyString => false
  | String c s' =>
      if Ascii.eqb c "-" then canonical_N s' && negb (String.eqb s' "0")
      else canonical_N s
  end.

(** Two keys rendered into one string stream:
    [std::ostringstream oss; oss << a << b; return oss.str();]. *)
Definition render_pair_at (a b : addr) : M string :=
  os ← new_ostringstream;
  os' ← operator_ltlt os a;
  _ ← operator_ltlt os' b;
  get_str os.

(** A store whose keys 1, 2 and 3, 4 differ only in where a digit sits. *)
Definition run_together_world : world :=
  World ∅
        {[1%positive := ReadKey "r" 1; 2%positive := ReadKey "2x" 0;
          3%positive := ReadKey "r" 12; 4%positive := ReadKey "x" 0]}.

(** * Auxiliary lemmas *)

(** ** Strings *)

Section strings.
Implicit Types s t u : string.

Lemma append_cons c s t : String c s +:+ t = String c (s +:+ t).
Proof. reflexivity. Qed.

Lemma append_nil_r s : s +:+ EmptyString = s.
Proof. induction s as [|c s IH]; [done|]. by rewrite append_cons, IH. Qed.

Lemma append_assoc s t u : (s +:+ t) +:+ u = s +:+ (t +:+ u).
Proof. induction s as [|c s IH]; [done|]. by rewrite !append_cons, IH. Qed.

Lemma append_length s t :
  String.length (s +:+ t) = (String.length s + String.length t)%nat.
Proof.
  induction s as [|c s IH]; [done|]. rewrite append_cons. cbn. by rewrite IH.
Qed.

Lemma string_compare_refl s : String.compare s s = Eq.
Proof.
  induction s as [|c s IH]; [done|]. cbn.
  unfold Ascii.compare. by rewrite N.compare_refl.
Qed.

Lemma string_compare_eq s t : String.compare s t = Eq ↔ s = t.
Proof.
  split; [apply String.compare_eq_iff|].
  intros ->. apply string_compare_refl.
Qed.

Lemma ascii_compare_lt_trans (a b c : ascii) :
  Ascii.compare a b = Lt → Ascii.compare b c = Lt → Ascii.compare a c = Lt.
Proof.
  unfold Ascii.compare. rewrite !N.compare_lt_iff. apply N.lt_trans.
Qed.

Lemma string_compare_lt_trans s t u :
  String.compare s t = Lt → String.compare t u = Lt → String.compare s u = Lt.
Proof.
  revert t u. induction s as [|a s IH]; intros [|b t] [|c u]; cbn; try done.
  destruct (Ascii.compare a b) eqn:Hab; try done.
  - apply Ascii.compare_eq_iff in Hab as ->.
    destruct (Ascii.compare b c); try done. apply IH.
  - intros _. destruct (Ascii.compare b c) eqn:Hbc; try done.
    + apply Ascii.compare_eq_iff in Hbc as <-. by rewrite Hab.
    + by rewrite (ascii_compare_lt_trans _ _ _ Hab Hbc).
Qed.

Lemma string_compare_gt_lt s t : String.compare s t = Gt ↔ String.compare t s = Lt.
Proof.
  rewrite (String.compare_antisym s t).
  destruct (String.compare t s); cbn; split; congruence.
Qed.
End strings.

(** ** Decimal numerals read back as the number they were made from *)

Section decimal.
Import Decimal.
Local Open Scope N_scope.

Lemma digit_value_digit d : d < 10 → digit_value (digit d) = Some d.
Proof.
  intros Hd. unfold digit_value, digit.
  rewrite N_ascii_embedding by lia.
  replace (48 <=? 48 + d) with true by (symmetry; apply N.leb_le; lia).
  replace (48 + d <=? 57) with true by (symmetry; apply N.leb_le; lia).
  cbn. f_equal. lia.
Qed.

(** Reading the digits of [n] shifts what was read before by the number
    of digits written and adds [n]. *)
Lemma read_put_digits fuel n acc :
  n < 2 ^ N.of_nat fuel →
  ∃ e, ∀ a, read_digits (put_digits fuel n acc) a = read_digits acc (a * 10 ^ e + n).
Proof.
  revert n acc. induction fuel as [|fuel IH]; intros n acc Hn.
  - exists 0. intros a. cbn in Hn. assert (n = 0) as -> by lia.
    cbn [put_digits]. f_equal. lia.
  - cbn [put_digits].
    assert (Hmod : n mod 10 < 10) by (apply N.mod_lt; lia).
    assert (Hdiv : n = 10 * (n / 10) + n mod 10) by (apply N.div_mod; lia).
    destruct (N.eqb_spec (n / 10) 0) as [Hz|Hz].
    + exists 1. intros a. cbn [read_digits].
      rewrite digit_value_digit by done. f_equal. lia.
    + destruct (IH (n / 10) (String (digit (n mod 10)) acc)) as [e He].
      { rewrite Nat2N.inj_succ, N.pow_succ_r' in Hn.
        apply N.Div0.div_lt_upper_bound. lia. }
      exists (N.succ e). intros a. rewrite He. cbn [read_digits].
      rewrite digit_value_digit by done. f_equal.
      rewrite N.pow_succ_r'. lia.
Qed.

Lemma put_digits_nonempty fuel n acc :
  put_digits (S fuel) n acc ≠ EmptyString.
Proof.
  revert n acc. induction fuel as [|fuel IH]; intros n acc; cbn [put_digits].
  - by destruct (n / 10 =? 0).
  - destruct (n / 10 =? 0); [done|]. apply (IH (n / 10)).
Qed.

Lemma to_N_of_N n : to_N (of_N n) = Some n.
Proof.
  unfold to_N, of_N.
  destruct (put_digits _ n EmptyString) eqn:Hp.
  { by apply put_digits_nonempty in Hp. }
  rewrite <- Hp.
  destruct (read_put_digits (S (N.to_nat (N.log2 n))) n EmptyString) as [e He].
  { rewrite Nat2N.inj_succ, N2Nat.id.
    destruct (N.eq_dec n 0) as [->|Hn]; [done|].
    apply N.log2_spec. lia. }
  rewrite He. cbn. f_equal.
Qed.
End decimal.

Section decimal_Z.
Import Decimal.

Lemma to_N_minus s : to_N (String "-" s) = None.
Proof. reflexivity. Qed.

Lemma to_Z_unsigned c s :
  c ≠ "-"%char → to_Z (String c s) = Z.of_N <$> to_N (String c s).
Proof.
  intros Hc. destruct c as [[] [] [] [] [] [] [] []]; try reflexivity.
  by destruct Hc.
Qed.

Lemma to_Z_of_N n : to_Z (of_N n) = Some (Z.of_N n).
Proof.
  pose proof (to_N_of_N n) as Hn.
  destruct (of_N n) as [|c s]; [done|].
  destruct (decide (c = "-"%char)) as [->|Hc].
  - by rewrite to_N_minus in Hn.
  - by rewrite to_Z_unsigned, Hn.
Qed.

(** [of_Z] writes the ordinary decimal numeral of its argument. *)
Lemma to_Z_of_Z z : to_Z (of_Z z) = Some z.
Proof.
  destruct z as [|p|p]; cbn [of_Z].
  - reflexivity.
  - apply (to_Z_of_N (Npos p)).
  - change (to_Z (String "-" (of_N (N.pos p))))
      with ((λ n, Z.opp (Z.of_N n)) <$> to_N (of_N (N.pos p))).
    by rewrite to_N_of_N.
Qed.

Lemma of_Z_encoding r : String.length (of_Z (read_no_as_integer r)) = 1%nat.
Proof. by destruct r. Qed.
End decimal_Z.

(** ** The operator on the store *)

Section operator.
Implicit Types (w : world) (os rk : addr) (o : ostream) (k : read_key).

Lemma put_spec os s w o :
  streams w !! os = Some o →
  put os s w = Some (os, World (<[os := Ostream (str o +:+ s)]> (streams w)) (keys w)).
Proof. intros Hos. unfold put. by rewrite Hos. Qed.

(** One call appends the rendering of the key to the stream, leaves every
    other object alone and returns the stream it was given. *)
Lemma operator_ltlt_spec os rk w o k :
  streams w !! os = Some o →
  keys w !! rk = Some k →
  operator_ltlt os rk w =
    Some (os, World (<[os := Ostream (str o +:+ rendering k)]> (streams w)) (keys w)).
Proof.
  intros Hos Hrk.
  unfold operator_ltlt, mbind, M_bind, mret, M_ret, get_qname, get_read_no,
    ins_string, ins_char, ins_int.
  rewrite Hrk, (put_spec _ _ _ _ Hos).
  erewrite put_spec by (cbn; apply lookup_insert_eq).
  cbn [keys]. rewrite Hrk.
  erewrite put_spec by (cbn; apply lookup_insert_eq).
  cbn [streams keys str]. rewrite !insert_insert_eq.
  unfold rendering. by rewrite !append_assoc.
Qed.

(** The only way for a call to go wrong is a dangling reference. *)
Lemma operator_ltlt_None os rk w :
  operator_ltlt os rk w = None ↔ streams w !! os = None ∨ keys w !! rk = None.
Proof.
  destruct (streams w !! os) as [o|] eqn:Hos, (keys w !! rk) as [k|] eqn:Hrk.
  - rewrite (operator_ltlt_spec _ _ _ _ _ Hos Hrk).
    split; [done|]. by intros [?|?].
  - split; [auto|intros _].
    unfold operator_ltlt, mbind, M_bind, get_qname. by rewrite Hrk.
  - split; [auto|intros _].
    unfold operator_ltlt, mbind, M_bind, get_qname, ins_string, put.
    by rewrite Hrk, Hos.
  - split; [auto|intros _].
    unfold operator_ltlt, mbind, M_bind, get_qname. by rewrite Hrk.
Qed.

Lemma operator_ltlt_inv os rk w r w' :
  operator_ltlt os rk w = Some (r, w') →
  ∃ o k, streams w !! os = Some o ∧ keys w !! rk = Some k ∧ r = os ∧
         w' = World (<[os := Ostream (str o +:+ rendering k)]> (streams w)) (keys w).
Proof.
  intros Hrun.
  destruct (streams w !! os) as [o|] eqn:Hos; last first.
  { rewrite (proj2 (operator_ltlt_None os rk w)) in Hrun by auto. done. }
  destruct (keys w !! rk) as [k|] eqn:Hrk; last first.
  { rewrite (proj2 (operator_ltlt_None os rk w)) in Hrun by auto. done. }
  rewrite (operator_ltlt_spec _ _ _ _ _ Hos Hrk) in Hrun.
  exists o, k. by simplify_eq.
Qed.

Lemma render_at_spec rk w k :
  keys w !! rk = Some k →
  render_at rk w =
    Some (rendering k,
          World (<[fresh (dom (streams w)) := Ostream (rendering k)]> (streams w))
                (keys w)).
Proof.
  intros Hrk. unfold render_at, mbind, M_bind, new_ostringstream.
  erewrite operator_ltlt_spec; [|cbn; apply lookup_insert_eq|done].
  cbn. unfold get_str. cbn. rewrite insert_insert_eq, lookup_insert_eq. done.
Qed.

Lemma render_at_inv rk w s w' :
  render_at rk w = Some (s, w') →
  ∃ k, keys w !! rk = Some k ∧ s = rendering k ∧ keys w' = keys w.
Proof.
  intros Hrun. destruct (keys w !! rk) as [k|] eqn:Hrk.
  - rewrite (render_at_spec _ _ _ Hrk) in Hrun. exists k. by simplify_eq.
  - unfold render_at, mbind, M_bind, new_ostringstream in Hrun.
    rewrite (proj2 (operator_ltlt_None _ _ _)) in Hrun by (cbn; auto). done.
Qed.

Lemma render_spec k : render k = Some (rendering k).
Proof.
  unfold render. erewrite render_at_spec; [done|]. cbn. apply lookup_singleton_eq.
Qed.
End operator.

(** ** Equality and order of keys *)

Section order.
Implicit Types a b c : read_key.

Lemma variant_of_Some n r : variant_of n = Some r ↔ n = read_no_as_integer r.
Proof.
  split.
  - destruct n as [|[[]|[]|]|]; cbn; intros; by simplify_eq.
  - intros ->. by destruct r.
Qed.

Lemma equals_true a b : equals a b = true ↔ a = b.
Proof.
  unfold equals. rewrite andb_true_iff, String.eqb_eq, Z.eqb_eq.
  destruct a, b; cbn. split; [by intros [-> ->]|by intros [= -> ->]].
Qed.

Lemma compare_Eq a b : compare a b = Eq ↔ a = b.
Proof.
  unfold compare. destruct a as [qa na], b as [qb nb]; cbn. split.
  - destruct (String.compare qa qb) eqn:Hq; try done.
    apply String.compare_eq_iff in Hq as ->. by intros ->%Z.compare_eq.
  - intros [= -> ->]. by rewrite string_compare_refl, Z.compare_refl.
Qed.

Lemma compare_antisym a b : compare b a = CompOpp (compare a b).
Proof.
  unfold compare. rewrite (String.compare_antisym (qname a) (qname b)).
  destruct (String.compare (qname b) (qname a)); cbn; try done.
  apply Z.compare_antisym.
Qed.

Lemma compare_Lt a b :
  compare a b = Lt ↔
  String.compare (qname a) (qname b) = Lt ∨
  (qname a = qname b ∧ (read_no a < read_no b)%Z).
Proof.
  unfold compare. destruct (String.compare (qname a) (qname b)) eqn:Hq.
  - apply String.compare_eq_iff in Hq. unfold Z.lt.
    split; [by right|]. by intros [?|[_ ?]].
  - split; [by left|done].
  - split; [done|]. intros [?|[Heq _]]; [done|].
    rewrite Heq, string_compare_refl in Hq. done.
Qed.

Lemma compare_lt_trans a b c :
  compare a b = Lt → compare b c = Lt → compare a c = Lt.
Proof.
  rewrite !compare_Lt. intros [Hab|[Hab Hn]] [Hbc|[Hbc Hm]].
  - left. eapply string_compare_lt_trans; eauto.
  - left. by rewrite <- Hbc.
  - left. by rewrite Hab.
  - right. split; [congruence|lia].
Qed.
End order.

(** ** More on decimal numerals *)

Section numerals.
Import Decimal.
Local Open Scope N_scope.

Lemma digit_not_slash d : d < 10 → digit d ≠ "/"%char.
Proof.
  intros Hd Heq. apply (f_equal N_of_ascii) in Heq. unfold digit in Heq.
  rewrite N_ascii_embedding in Heq by lia. cbn in Heq. lia.
Qed.

Lemma put_digits_no_slash fuel n acc :
  occurs "/" acc = false → occurs "/" (put_digits fuel n acc) = false.
Proof.
  revert n acc. induction fuel as [|fuel IH]; intros n acc Hacc; [done|].
  cbn [put_digits].
  assert (Hstep : occurs "/" (String (digit (n mod 10)) acc) = false).
  { cbn [occurs]. rewrite Hacc, orb_false_r. apply Ascii.eqb_neq.
    intros Heq. by apply (digit_not_slash (n mod 10)); [apply N.mod_lt|]. }
  destruct (n / 10 =? 0); [done|]. by apply IH.
Qed.

Lemma of_Z_no_slash z : occurs "/" (of_Z z) = false.
Proof.
  destruct z as [|p|p]; cbn [of_Z]; [done|..].
  - by apply put_digits_no_slash.
  - cbn [occurs]. change (Ascii.eqb "/" "-") with false.
    by apply put_digits_no_slash.
Qed.

Lemma of_Z_inj a b : of_Z a = of_Z b → a = b.
Proof.
  intros Heq. apply (f_equal to_Z) in Heq. rewrite !to_Z_of_Z in Heq.
  by simplify_eq.
Qed.

Lemma put_digits_step fuel n acc :
  put_digits (S fuel) n acc =
    if n / 10 =? 0 then String (digit (n mod 10)) acc
    else put_digits fuel (n / 10) (String (digit (n mod 10)) acc).
Proof. reflexivity. Qed.

(** The accumulator is carried along untouched. *)
Lemma put_digits_acc fuel n acc :
  put_digits fuel n acc = put_digits fuel n EmptyString +:+ acc.
Proof.
  revert n acc. induction fuel as [|fuel IH]; intros n acc; [done|].
  cbn [put_digits]. destruct (n / 10 =? 0); [done|].
  rewrite (IH _ (String _ acc)), (IH _ (String _ EmptyString)).
  by rewrite append_assoc.
Qed.

(** Any fuel that covers the binary size of the number gives the same
    digits. *)
Lemma put_digits_fuel f f' n acc :
  n < 2 ^ N.of_nat (S f) → n < 2 ^ N.of_nat (S f') →
  put_digits (S f) n acc = put_digits (S f') n acc.
Proof.
  revert f' n acc. induction f as [|f IH]; intros f' n acc Hf Hf'.
  - assert (n / 10 = 0) as Hz.
    { apply N.div_small. cbn in Hf. lia. }
    cbn [put_digits]. by rewrite Hz.
  - cbn [put_digits]. destruct (N.eqb_spec (n / 10) 0) as [Hz|Hz]; [done|].
    assert (Hhalf : ∀ g, n < 2 ^ N.of_nat (S g) → n / 10 < 2 ^ N.of_nat g).
    { intros g Hg. rewrite Nat2N.inj_succ, N.pow_succ_r' in Hg.
      apply N.Div0.div_lt_upper_bound. lia. }
    destruct f' as [|f'].
    { apply Hhalf in Hf'. change (2 ^ N.of_nat 0) with 1 in Hf'.
      by apply N.lt_1_r in Hf'. }
    apply IH; by apply Hhalf.
Qed.

Lemma of_N_snoc n d :
  n ≠ 0 → d < 10 → of_N (10 * n + d) = of_N n +:+ String (digit d) EmptyString.
Proof.
  intros Hn Hd. unfold of_N.
  assert (Hlog : N.log2 n < N.log2 (10 * n + d)).
  { apply N.lt_le_trans with (N.log2 (2 * n)).
    - rewrite N.log2_double by lia. lia.
    - apply N.log2_le_mono. lia. }
  destruct (N.to_nat (N.log2 (10 * n + d))) as [|f] eqn:Hf; [lia|].
  rewrite put_digits_step.
  replace ((10 * n + d) mod 10) with d
    by (symmetry; rewrite N.add_comm, N.mul_comm, N.Div0.mod_add;
        by apply N.mod_small).
  replace ((10 * n + d) / 10) with n
    by (symmetry; rewrite N.mul_comm, N.div_add_l by lia;
        rewrite (N.div_small d) by done; lia).
  destruct (N.eqb_spec n 0) as [|_]; [done|].
  rewrite put_digits_acc. f_equal.
  assert (Hsize : n < 2 ^ N.succ (N.log2 n)) by (apply N.log2_spec; lia).
  apply put_digits_fuel.
  - eapply N.lt_le_trans; [apply Hsize|]. apply N.pow_le_mono_r; lia.
  - by rewrite Nat2N.inj_succ, N2Nat.id.
Qed.

Lemma put_digits_length_le fuel n acc (e : nat) :
  n < 10 ^ N.of_nat (S e) →
  (String.length (put_digits fuel n acc) ≤ S e + String.length acc)%nat.
Proof.
  revert n acc e. induction fuel as [|fuel IH]; intros n acc e Hn.
  - cbn. lia.
  - cbn [put_digits]. destruct (N.eqb_spec (n / 10) 0) as [Hz|Hz].
    + cbn. lia.
    + destruct e as [|e].
      { exfalso. apply Hz. apply N.div_small. cbn in Hn. lia. }
      etrans; [apply IH with (e := e)|cbn; lia].
      rewrite Nat2N.inj_succ, N.pow_succ_r' in Hn.
      apply N.Div0.div_lt_upper_bound. lia.
Qed.

Lemma of_N_length n (e : nat) :
  n < 10 ^ N.of_nat (S e) → (1 ≤ String.length (of_N n) ≤ S e)%nat.
Proof.
  intros Hn. split.
  - unfold of_N.
    destruct (put_digits _ n EmptyString) eqn:Hp; [|cbn; lia].
    by apply put_digits_nonempty in Hp.
  - etrans; [by apply put_digits_length_le|]. cbn. lia.
Qed.
End numerals.

Section numerals_Z.
Import Decimal.

Lemma of_Z_of_N n : of_Z (Z.of_N n) = of_N n.
Proof. by destruct n. Qed.

Lemma of_Z_snoc n d :
  (0 < n)%Z → (0 ≤ d < 10)%Z →
  of_Z (10 * n + d) = of_Z n +:+ String (digit (Z.to_N d)) EmptyString.
Proof.
  intros Hn Hd.
  replace (10 * n + d)%Z with (Z.of_N (10 * Z.to_N n + Z.to_N d)) by lia.
  replace n with (Z.of_N (Z.to_N n)) at 2 by lia.
  rewrite !of_Z_of_N. apply of_N_snoc; lia.
Qed.

Lemma of_Z_length n : int_range n → (1 ≤ String.length (of_Z n) ≤ 11)%nat.
Proof.
  intros [Hlo Hhi]. destruct n as [|p|p]; cbn [of_Z].
  - change (of_N 0) with "0". cbn. lia.
  - destruct (of_N_length (N.pos p) 9) as [? ?]; [|lia].
    change (10 ^ N.of_nat 10)%N with 10000000000%N. lia.
  - destruct (of_N_length (N.pos p) 9) as [? ?]; [|cbn [String.length]; lia].
    change (10 ^ N.of_nat 10)%N with 10000000000%N. lia.
Qed.
End numerals_Z.

(** ** Canonical numerals *)

Section canonical_numerals.
Import Decimal.
Local Open Scope N_scope.

Lemma digit_value_Some c d : digit_value c = Some d → d < 10 ∧ c = digit d.
Proof.
  unfold digit_value, digit.
  destruct (N.leb_spec 48 (N_of_ascii c)) as [Hlo|]; [|done].
  destruct (N.leb_spec (N_of_ascii c) 57) as [Hhi|]; [|done].
  cbn. intros [= <-]. split; [lia|].
  replace (48 + (N_of_ascii c - 48)) with (N_of_ascii c) by lia.
  by rewrite ascii_N_embedding.
Qed.

Lemma digit_code d : d < 10 → N_of_ascii (digit d) = 48 + d.
Proof. intros Hd. unfold digit. apply N_ascii_embedding. lia. Qed.

Lemma digit_not_zero d : d < 10 → d ≠ 0 → Ascii.eqb (digit d) "0" = false.
Proof.
  intros Hd Hnz. apply Ascii.eqb_neq. intros Heq.
  apply (f_equal N_of_ascii) in Heq. rewrite digit_code in Heq by done.
  cbn in Heq. lia.
Qed.

Lemma digit_not_minus d : d < 10 → Ascii.eqb (digit d) "-" = false.
Proof.
  intros Hd. apply Ascii.eqb_neq. intros Heq.
  apply (f_equal N_of_ascii) in Heq. rewrite digit_code in Heq by done.
  cbn in Heq. lia.
Qed.

Lemma of_N_digit d : d < 10 → of_N d = String (digit d) EmptyString.
Proof.
  intros Hd. unfold of_N. rewrite put_digits_step.
  by rewrite N.div_small, N.mod_small.
Qed.

(** Digits read after a number that is not zero are the digits written
    after it. *)
Lemma read_digits_of_N s acc m :
  acc ≠ 0 → read_digits s acc = Some m → of_N m = of_N acc +:+ s.
Proof.
  revert acc. induction s as [|c s IH]; intros acc Hacc; cbn [read_digits].
  - intros [= ->]. by rewrite append_nil_r.
  - destruct (digit_value c) as [d|] eqn:Hc; [|done].
    apply digit_value_Some in Hc as [Hd ->]. intros Hr.
    apply IH in Hr; [|lia].
    by rewrite Hr, of_N_snoc, append_assoc.
Qed.

Lemma canonical_N_unique s m :
  canonical_N s = true → to_N s = Some m → s = of_N m.
Proof.
  destruct s as [|c s]; [done|]. cbn [canonical_N to_N read_digits].
  destruct (digit_value c) as [d|] eqn:Hc; [|done].
  apply digit_value_Some in Hc as [Hd ->].
  rewrite N.mul_0_r, N.add_0_l.
  destruct (N.eq_dec d 0) as [->|Hnz].
  - change (Ascii.eqb (digit 0) "0") with true. cbn [negb orb].
    intros ->%String.eqb_eq. by intros [= <-].
  - intros _ Hr. apply read_digits_of_N in Hr; [|done].
    by rewrite Hr, of_N_digit.
Qed.

Lemma put_digits_head fuel n acc :
  n ≠ 0 → n < 2 ^ N.of_nat fuel →
  ∃ d s, put_digits fuel n acc = String (digit d) s ∧ d ≠ 0 ∧ d < 10.
Proof.
  revert n acc. induction fuel as [|fuel IH]; intros n acc Hn Hfuel.
  - change (2 ^ N.of_nat 0) with 1 in Hfuel. by apply N.lt_1_r in Hfuel.
  - rewrite put_digits_step. destruct (N.eqb_spec (n / 10) 0) as [Hz|Hz].
    + apply N.div_small_iff in Hz; [|done].
      exists (n mod 10), acc. rewrite N.mod_small by done. done.
    + apply IH; [done|].
      rewrite Nat2N.inj_succ, N.pow_succ_r' in Hfuel.
      apply N.Div0.div_lt_upper_bound. lia.
Qed.

Lemma of_N_head n :
  n ≠ 0 → ∃ d s, of_N n = String (digit d) s ∧ d ≠ 0 ∧ d < 10.
Proof.
  intros Hn. apply put_digits_head; [done|].
  rewrite Nat2N.inj_succ, N2Nat.id. apply N.log2_spec. lia.
Qed.
End canonical_numerals.

Section canonical_numerals_Z.
Import Decimal.

(** A canonical numeral is the one [of_Z] writes for its value. *)
Lemma canonical_unique s z :
  canonical s = true → to_Z s = Some z → s = of_Z z.
Proof.
  destruct s as [|c s]; [done|]. cbn [canonical].
  destruct (Ascii.eqb_spec c "-") as [->|Hc].
  - intros [Hcan Hnz]%andb_true_iff.
    change (to_Z (String "-" s)) with ((λ n, Z.opp (Z.of_N n)) <$> to_N s).
    destruct (to_N s) as [m|] eqn:Hm; [|done]. cbn. intros [= <-].
    apply canonical_N_unique in Hm; [|done]. subst s.
    by destruct m as [|p].
  - intros Hcan. rewrite to_Z_unsigned by done.
    destruct (to_N (String c s)) as [m|] eqn:Hm; [|done]. cbn. intros [= <-].
    rewrite of_Z_of_N. by apply canonical_N_unique.
Qed.

Lemma canonical_of_Z z : canonical (of_Z z) = true.
Proof.
  destruct z as [|p|p]; cbn [of_Z]; [done|..];
    destruct (of_N_head (N.pos p)) as (d & s & -> & Hnz & Hd); try done;
    cbn [canonical canonical_N String.eqb].
  - by rewrite digit_not_minus, digit_not_zero.
  - change (Ascii.eqb "-" "-") with true. cbn iota.
    by rewrite digit_not_zero.
Qed.
End canonical_numerals_Z.

(** ** Texts cut at their last slash *)

Section slashes.
Implicit Types q d : string.

Lemma append_nil_l d : EmptyString +:+ d = d.
Proof. reflexivity. Qed.

Lemma occurs_slash_append q d : occurs "/" (q +:+ String "/" d) = true.
Proof.
  induction q as [|c q IH]; [done|].
  rewrite append_cons. cbn [occurs]. by rewrite IH, orb_true_r.
Qed.

Lemma split_last_slash q1 q2 d1 d2 :
  occurs "/" d1 = false → occurs "/" d2 = false →
  q1 +:+ "/" +:+ d1 = q2 +:+ "/" +:+ d2 → q1 = q2 ∧ d1 = d2.
Proof.
  intros H1 H2.
  change ("/" +:+ d1) with (String "/" d1). change ("/" +:+ d2) with (String "/" d2).
  revert q2.
  induction q1 as [|c1 q1 IH]; intros [|c2 q2];
    rewrite ?append_cons, ?append_nil_l.
  - by intros [= ->].
  - intros [= <- ->]. by rewrite occurs_slash_append in H1.
  - intros [= -> <-]. by rewrite occurs_slash_append in H2.
  - intros [= -> Heq]. by destruct (IH _ Heq) as [-> ->].
Qed.

Lemma rendering_inj a b : rendering a = rendering b → a = b.
Proof.
  destruct a as [qa na], b as [qb nb]. unfold rendering. cbn [qname read_no].
  intros [-> Hn%of_Z_inj]%split_last_slash; [by subst|..];
    apply of_Z_no_slash.
Qed.
End slashes.

(** ** Calls in sequence *)

Section sequences.
Implicit Types (w : world) (os rk : addr) (o : ostream) (k : read_key).

Lemma render_at_None rk w : render_at rk w = None → keys w !! rk = None.
Proof.
  intros Hrun. destruct (keys w !! rk) as [k|] eqn:Hrk; [|done].
  by rewrite (render_at_spec _ _ _ Hrk) in Hrun.
Qed.

Lemma render_pair_at_spec a b w ka kb :
  keys w !! a = Some ka → keys w !! b = Some kb →
  render_pair_at a b w =
    Some (rendering ka +:+ rendering kb,
          World (<[fresh (dom (streams w)) := Ostream (rendering ka +:+ rendering kb)]>
                   (streams w))
                (keys w)).
Proof.
  intros Ha Hb. unfold render_pair_at, mbind, M_bind, new_ostringstream.
  erewrite operator_ltlt_spec; [|cbn; apply lookup_insert_eq|done].
  erewrite operator_ltlt_spec; [|cbn; apply lookup_insert_eq|done].
  unfold get_str. cbn.
  by rewrite !insert_insert_eq, lookup_insert_eq, append_assoc.
Qed.
End sequences.

(** * Properties of the specification *)

(** C1. For a non-empty query name [q] and a read-number variant [r], [make]
    builds a key and [render] of that key is exactly [q], one slash and the
    decimal numeral of the integer encoding of [r]: nothing before, between
    or after (the numeral is one digit, it reads back as the encoding, and
    the whole string is two characters longer than [q]). *)
Theorem render_make_canonical (q : string) (r : read_no_t) :
  q ≠ EmptyString →
  ∃ k s,
    make q r = inr k ∧ valid k ∧ render k = Some s ∧
    s = q +:+ "/" +:+ Decimal.of_Z (read_no_as_integer r) ∧
    Decimal.to_Z (Decimal.of_Z (read_no_as_integer r)) = Some (read_no_as_integer r) ∧
    String.length s = (String.length q + 2)%nat.
Proof.
  intros Hq. exists (ReadKey q (read_no_as_integer r)). eexists.
  split; [by destruct q|]. split.
  { split; [done|]. cbn. by destruct r. }
  split; [apply render_spec|]. split; [done|].
  split; [apply to_Z_of_Z|].
  unfold rendering. cbn [qname read_no].
  rewrite !append_length, of_Z_encoding. cbn. lia.
Qed.

Lemma render_make_canonical_witness :
  "SRR000001.123" ≠ EmptyString ∧
  ∃ k s,
    make "SRR000001.123" SECOND_MATE = inr k ∧ valid k ∧ render k = Some s ∧
    s = "SRR000001.123" +:+ "/" +:+ Decimal.of_Z (read_no_as_integer SECOND_MATE) ∧
    Decimal.to_Z (Decimal.of_Z (read_no_as_integer SECOND_MATE))
      = Some (read_no_as_integer SECOND_MATE) ∧
    String.length s = (String.length "SRR000001.123" + 2)%nat.
Proof.
  split; [discriminate|].
  apply (render_make_canonical "SRR000001.123" SECOND_MATE). discriminate.
Defined.

(** C2. The encoding of the read number is fixed, UNKNOWN_OR_UNPAIRED as 0,
    FIRST_MATE as 1 and SECOND_MATE as 2, and the three keys made from the
    query name SRR000001.123 render with the suffixes /0, /1 and /2. *)
Theorem read_no_encoding_fixed :
  read_no_as_integer UNKNOWN_OR_UNPAIRED = 0%Z ∧
  read_no_as_integer FIRST_MATE = 1%Z ∧
  read_no_as_integer SECOND_MATE = 2%Z ∧
  (make "SRR000001.123" UNKNOWN_OR_UNPAIRED = inr (ReadKey "SRR000001.123" 0) ∧
   render (ReadKey "SRR000001.123" 0) = Some "SRR000001.123/0") ∧
  (make "SRR000001.123" FIRST_MATE = inr (ReadKey "SRR000001.123" 1) ∧
   render (ReadKey "SRR000001.123" 1) = Some "SRR000001.123/1") ∧
  (make "SRR000001.123" SECOND_MATE = inr (ReadKey "SRR000001.123" 2) ∧
   render (ReadKey "SRR000001.123" 2) = Some "SRR000001.123/2").
Proof.
  repeat split; try reflexivity; by rewrite render_spec.
Qed.

(** C3. [make] succeeds on every non-empty query name with every variant,
    storing both; it fails exactly on the empty query name, and then with
    InvalidArgument, the only error there is; a key it built renders
    without failure. *)
Theorem make_fails_iff_empty (q : string) (r : read_no_t) :
  (q ≠ EmptyString → make q r = inr (ReadKey q (read_no_as_integer r))) ∧
  (make q r = inl InvalidArgument ↔ q = EmptyString) ∧
  make EmptyString FIRST_MATE = inl InvalidArgument ∧
  (∀ e, make q r = inl e → e = InvalidArgument ∧ q = EmptyString) ∧
  (∀ k, make q r = inr k → is_Some (render k)).
Proof.
  split; [by destruct q|]. split; [by destruct q|]. split; [done|].
  split.
  - intros []. by destruct q.
  - intros k _. rewrite render_spec. by eexists.
Qed.

Lemma make_fails_iff_empty_witness :
  make "q1" FIRST_MATE = inr (ReadKey "q1" 1) ∧
  make EmptyString SECOND_MATE = inl InvalidArgument ∧
  is_Some (render (ReadKey "q1" 1)).
Proof.
  split; [|split].
  - apply (proj1 (make_fails_iff_empty "q1" FIRST_MATE)). discriminate.
  - apply (proj1 (proj2 (make_fails_iff_empty EmptyString SECOND_MATE))).
    reflexivity.
  - apply (proj2 (proj2 (proj2 (proj2 (make_fails_iff_empty "q1" FIRST_MATE))))).
    reflexivity.
Defined.

(** C4. [equals a b] is true exactly when the query names are equal, byte
    for byte, and the read numbers are the same; for keys built by [make]
    that is: same query name and same variant. *)
Theorem equals_iff_same_fields (a b : read_key) :
  (equals a b = true ↔ qname a = qname b ∧ read_no a = read_no b) ∧
  (∀ qa ra qb rb,
     make qa ra = inr a → make qb rb = inr b →
     (equals a b = true ↔ qa = qb ∧ ra = rb)) ∧
  (valid a → valid b →
     (equals a b = true ↔
      qname a = qname b ∧ variant_of (read_no a) = variant_of (read_no b))).
Proof.
  assert (Hfields : equals a b = true ↔ qname a = qname b ∧ read_no a = read_no b).
  { unfold equals. by rewrite andb_true_iff, String.eqb_eq, Z.eqb_eq. }
  split; [done|]. split.
  - intros qa ra qb rb Ha Hb. rewrite Hfields.
    destruct qa, qb; simplify_eq/=; (split; [|by intros [[= <- <-] <-]]);
      intros [Hq Hr]; (split; [done|]); by destruct ra, rb.
  - intros [_ [ra Ha]] [_ [rb Hb]]. rewrite Hfields, Ha, Hb.
    apply variant_of_Some in Ha, Hb. rewrite Ha, Hb.
    split; (intros [? Hr]; split; [done|]); [by destruct ra, rb|congruence].
Qed.

Lemma equals_iff_same_fields_witness :
  equals (ReadKey "a" 1) (ReadKey "a" 1) = true ∧
  equals (ReadKey "a" 1) (ReadKey "a" 2) ≠ true.
Proof.
  split.
  - apply (proj2 (proj1 (proj2 (equals_iff_same_fields (ReadKey "a" 1) (ReadKey "a" 1)))
                    "a" FIRST_MATE "a" FIRST_MATE eq_refl eq_refl)).
    split; reflexivity.
  - intros He.
    apply (proj1 (proj1 (proj2 (equals_iff_same_fields (ReadKey "a" 1) (ReadKey "a" 2)))
                    "a" FIRST_MATE "a" SECOND_MATE eq_refl eq_refl)) in He.
    destruct He as [_ He]. discriminate He.
Defined.

(** C5. [compare] is a strict total order on keys, lexicographic on the
    query name and then on the integer read number: it answers equal
    exactly when [equals] holds (so a key is equal to itself), swapping the
    arguments swaps less and greater, less is transitive, and any two keys
    are either equal or ordered one way. *)
Theorem compare_strict_total_order (a b c : read_key) :
  (compare a b = Eq ↔ equals a b = true) ∧
  compare a a = Eq ∧
  compare b a = CompOpp (compare a b) ∧
  (compare a b = Lt → compare b c = Lt → compare a c = Lt) ∧
  (compare a b = Lt ↔
     String.compare (qname a) (qname b) = Lt ∨
     (qname a = qname b ∧ (read_no a < read_no b)%Z)) ∧
  ((compare a b = Lt ∧ compare b a = Gt ∧ a ≠ b) ∨
   (compare a b = Eq ∧ compare b a = Eq ∧ a = b) ∨
   (compare a b = Gt ∧ compare b a = Lt ∧ a ≠ b)).
Proof.
  split; [by rewrite compare_Eq, equals_true|].
  split; [by apply compare_Eq|].
  split; [apply compare_antisym|].
  split; [apply compare_lt_trans|].
  split; [apply compare_Lt|].
  rewrite (compare_antisym a b).
  destruct (compare a b) eqn:Hab; cbn.
  - right; left. by apply compare_Eq in Hab.
  - left. repeat split; try done. intros Heq%compare_Eq. congruence.
  - right; right. repeat split; try done. intros Heq%compare_Eq. congruence.
Qed.

Lemma compare_strict_total_order_witness :
  compare (ReadKey "a" 2) (ReadKey "b" 0) = Lt ∧
  compare (ReadKey "b" 0) (ReadKey "b" 1) = Lt ∧
  compare (ReadKey "a" 2) (ReadKey "b" 1) = Lt.
Proof.
  split; [reflexivity|]. split; [reflexivity|].
  apply (proj1 (proj2 (proj2 (proj2
           (compare_strict_total_order (ReadKey "a" 2) (ReadKey "b" 0) (ReadKey "b" 1))))));
    reflexivity.
Defined.

(** C6. Rendering a key held in the store always succeeds, yields the text
    fixed by the key alone, changes neither the keys nor the streams that
    existed before, and yields the same text when repeated; keys that are
    [equals] render to the same string. *)
Theorem render_pure_deterministic (w : world) (rk : addr) (k : read_key) :
  keys w !! rk = Some k →
  ∃ w' w'',
    render_at rk w = Some (rendering k, w') ∧
    keys w' = keys w ∧
    (∀ os o, streams w !! os = Some o → streams w' !! os = Some o) ∧
    render_at rk w' = Some (rendering k, w'') ∧
    keys w'' = keys w ∧
    render k = Some (rendering k) ∧
    (∀ k', equals k k' = true → render k' = render k).
Proof.
  intros Hrk. do 2 eexists.
  split; [by apply render_at_spec|]. split; [done|]. split.
  { intros os o Hos. cbn. rewrite lookup_insert_ne; [done|].
    intros <-. apply (is_fresh (dom (streams w))), elem_of_dom. by eexists. }
  split; [by apply render_at_spec|]. split; [done|].
  split; [apply render_spec|].
  by intros k' ->%equals_true.
Qed.

Lemma render_pure_deterministic_witness :
  keys sample_world !! 1%positive = Some (ReadKey "SRR000001.123" 1) ∧
  ∃ w' w'',
    render_at 1%positive sample_world = Some ("SRR000001.123/1", w') ∧
    keys w' = keys sample_world ∧
    (∀ os o, streams sample_world !! os = Some o → streams w' !! os = Some o) ∧
    render_at 1%positive w' = Some ("SRR000001.123/1", w'') ∧
    keys w'' = keys sample_world ∧
    render (ReadKey "SRR000001.123" 1) = Some "SRR000001.123/1" ∧
    (∀ k', equals (ReadKey "SRR000001.123" 1) k' = true →
           render k' = render (ReadKey "SRR000001.123" 1)).
Proof.
  split; [reflexivity|].
  apply (render_pure_deterministic sample_world 1%positive (ReadKey "SRR000001.123" 1)).
  reflexivity.
Defined.

(** C7. No operation changes a key: whatever the outcome of the insertion
    operator or of rendering, the keys of the store afterwards are those of
    before, and the comparisons leave the whole store as it was; on live
    references all of them do return. *)
Theorem read_key_immutable (w : world) (os a b : addr) :
  (∀ r w', operator_ltlt os a w = Some (r, w') → keys w' = keys w) ∧
  (∀ s w', render_at a w = Some (s, w') → keys w' = keys w) ∧
  (∀ e w', equals_at a b w = Some (e, w') → w' = w) ∧
  (∀ c w', compare_at a b w = Some (c, w') → w' = w) ∧
  (∀ o ka kb,
     streams w !! os = Some o → keys w !! a = Some ka → keys w !! b = Some kb →
     (∃ w', operator_ltlt os a w = Some (os, w') ∧
            keys w' !! a = Some ka ∧ keys w' !! b = Some kb) ∧
     (∃ s w', render_at a w = Some (s, w') ∧
              keys w' !! a = Some ka ∧ keys w' !! b = Some kb) ∧
     equals_at a b w = Some (equals ka kb, w) ∧
     compare_at a b w = Some (compare ka kb, w)).
Proof.
  split.
  { intros r w' (o & k & _ & _ & _ & ->)%operator_ltlt_inv. done. }
  split.
  { by intros s w' (k & _ & _ & ?)%render_at_inv. }
  split.
  { intros e w'. unfold equals_at, mbind, M_bind, get_key, mret, M_ret.
    destruct (keys w !! a); [|done]. destruct (keys w !! b); [|done].
    by intros [= _ <-]. }
  split.
  { intros c w'. unfold compare_at, mbind, M_bind, get_key, mret, M_ret.
    destruct (keys w !! a); [|done]. destruct (keys w !! b); [|done].
    by intros [= _ <-]. }
  intros o ka kb Hos Ha Hb. split.
  { eexists. split; [by apply operator_ltlt_spec|]. done. }
  split.
  { do 2 eexists. split; [by apply render_at_spec|]. done. }
  unfold equals_at, compare_at, mbind, M_bind, get_key, mret, M_ret.
  by rewrite Ha, Hb.
Qed.

Lemma read_key_immutable_witness :
  ∃ w',
    operator_ltlt 1%positive 2%positive sample_world = Some (1%positive, w') ∧
    keys w' = keys sample_world.
Proof.
  eexists. split; [reflexivity|].
  apply (proj1 (read_key_immutable sample_world 1%positive 2%positive 1%positive)
           1%positive).
  reflexivity.
Defined.

(** C8. The operator returns the very reference to the stream it was given,
    whatever the outcome; so a second key, or any other insertion, can be
    chained on its result and lands in the same stream after the first. *)
Theorem operator_returns_same_stream (w : world) (os rk1 rk2 : addr) :
  (∀ r w', operator_ltlt os rk1 w = Some (r, w') → r = os) ∧
  (∀ o k1 k2,
     streams w !! os = Some o → keys w !! rk1 = Some k1 → keys w !! rk2 = Some k2 →
     (∃ w1, operator_ltlt os rk1 w = Some (os, w1)) ∧
     (∃ w2, (os' ← operator_ltlt os rk1; operator_ltlt os' rk2) w = Some (os, w2) ∧
            streams w2 !! os = Some (Ostream (str o +:+ rendering k1 +:+ rendering k2))) ∧
     (∃ w3, (os' ← operator_ltlt os rk1; ins_char os' "010") w = Some (os, w3) ∧
            streams w3 !! os = Some (Ostream (str o +:+ rendering k1 +:+ String "010" "")))).
Proof.
  split.
  { by intros r w' (o & k & _ & _ & -> & _)%operator_ltlt_inv. }
  intros o k1 k2 Hos H1 H2. split.
  { eexists. by apply operator_ltlt_spec. }
  split.
  - eexists. unfold mbind at 1, M_bind at 1.
    rewrite (operator_ltlt_spec _ _ _ _ _ Hos H1).
    erewrite operator_ltlt_spec; [|cbn; apply lookup_insert_eq|done].
    split; [done|]. cbn. by rewrite lookup_insert_eq, append_assoc.
  - eexists. unfold mbind at 1, M_bind at 1.
    rewrite (operator_ltlt_spec _ _ _ _ _ Hos H1).
    unfold ins_char. erewrite put_spec by (cbn; apply lookup_insert_eq).
    split; [done|]. cbn. by rewrite lookup_insert_eq, append_assoc.
Qed.

Lemma operator_returns_same_stream_witness :
  ∃ w2,
    (os' ← operator_ltlt 1%positive 1%positive; operator_ltlt os' 2%positive)
      sample_world = Some (1%positive, w2) ∧
    streams w2 !! 1%positive = Some (Ostream "read SRR000001.123/1/-7").
Proof.
  apply (proj1 (proj2 (proj2 (operator_returns_same_stream
                 sample_world 1%positive 1%positive 2%positive)
           (Ostream "read ") (ReadKey "SRR000001.123" 1) (ReadKey EmptyString (-7))
           eq_refl eq_refl eq_refl))).
Defined.

(** C9. Rendering does not look at the query name: it succeeds for every
    key, and for a key with an empty query name the text is a slash
    followed by the read number, written as its canonical decimal numeral.
    It fails only when the reference to the key dangles. *)
Theorem operator_accepts_empty_qname (w : world) (rk : addr) (k : read_key) :
  keys w !! rk = Some k →
  (∃ w', render_at rk w
         = Some (qname k +:+ "/" +:+ Decimal.of_Z (read_no k), w')) ∧
  (qname k = EmptyString →
   ∃ w' d, render_at rk w = Some (String "/" d, w') ∧
           Decimal.to_Z d = Some (read_no k) ∧ canonical d = true) ∧
  (qname k = EmptyString →
   render k = Some (String "/" (Decimal.of_Z (read_no k)))) ∧
  is_Some (render k) ∧
  (∀ w0 rk0, render_at rk0 w0 = None → keys w0 !! rk0 = None).
Proof.
  intros Hrk. split.
  { eexists. by apply render_at_spec. }
  split.
  { intros Hq. do 2 eexists. rewrite (render_at_spec _ _ _ Hrk).
    unfold rendering. rewrite Hq.
    split; [done|]. split; [apply to_Z_of_Z|apply canonical_of_Z]. }
  split.
  { intros Hq. rewrite render_spec. unfold rendering. by rewrite Hq. }
  split.
  { rewrite render_spec. by eexists. }
  intros w0 rk0. apply render_at_None.
Qed.

Lemma operator_accepts_empty_qname_witness :
  keys sample_world !! 2%positive = Some (ReadKey EmptyString (-7)) ∧
  ∃ w' d, render_at 2%positive sample_world = Some (String "/" d, w') ∧
          Decimal.to_Z d = Some (-7)%Z ∧ canonical d = true.
Proof.
  split; [reflexivity|].
  apply (proj1 (proj2 (operator_accepts_empty_qname sample_world 2%positive
                         (ReadKey EmptyString (-7)) eq_refl))).
  reflexivity.
Defined.

(** C10. Rendering writes whatever integer [read_no()] yields: for every
    query name [q] and every integer [n], negative or above 2 included, the
    text is [q], a slash and the ordinary decimal numeral of [n], that is
    the one canonical numeral that reads back as [n]. *)
Theorem operator_any_read_no (w : world) (rk : addr) (q : string) (n : Z) :
  keys w !! rk = Some (ReadKey q n) →
  (∃ w', render_at rk w = Some (q +:+ "/" +:+ Decimal.of_Z n, w')) ∧
  render (ReadKey q n) = Some (q +:+ "/" +:+ Decimal.of_Z n) ∧
  Decimal.to_Z (Decimal.of_Z n) = Some n ∧
  canonical (Decimal.of_Z n) = true ∧
  (∀ s, canonical s = true → Decimal.to_Z s = Some n → s = Decimal.of_Z n).
Proof.
  intros Hrk. split.
  { eexists. by rewrite (render_at_spec _ _ _ Hrk). }
  split; [apply render_spec|]. split; [apply to_Z_of_Z|].
  split; [apply canonical_of_Z|]. intros s. apply canonical_unique.
Qed.

Lemma operator_any_read_no_witness :
  (∃ w', render_at 2%positive sample_world = Some ("/-7", w')) ∧
  render (ReadKey EmptyString (-7)) = Some "/-7" ∧
  Decimal.to_Z "-7" = Some (-7)%Z ∧
  canonical "-7" = true ∧
  (∀ s, canonical s = true → Decimal.to_Z s = Some (-7)%Z → s = "-7").
Proof.
  apply (operator_any_read_no sample_world 2%positive EmptyString (-7) eq_refl).
Defined.

(** Read numbers far outside the encoding are written out in full. *)
Example render_out_of_range :
  render (ReadKey "q" 2147483647) = Some "q/2147483647" ∧
  render (ReadKey "q" (-2147483648)) = Some "q/-2147483648" ∧
  render (ReadKey "q" 3) = Some "q/3".
Proof. by rewrite !render_spec. Qed.


(** * Further properties of the operator *)

(** X2. Rendering is unambiguous: two keys with the same rendered text are
    the same key, also when query names contain slashes or digits, since
    the numeral after the last slash never contains one. *)
Theorem render_injective (a b : read_key) :
  render a = render b → a = b.
Proof.
  rewrite !render_spec. intros [= Heq]. by apply rendering_inj.
Qed.

Lemma render_injective_witness :
  ReadKey "a/1" 2 = ReadKey "a/1" 2.
Proof.
  apply (render_injective (ReadKey "a/1" 2) (ReadKey "a/1" 2)). reflexivity.
Defined.

(** X4. The rendered text has as many characters as the query name, one
    for the slash, and the length of the numeral; when the read number is a
    32-bit value that is at least two and at most twelve characters more
    than the query name, and both bounds are met: by read number 0 and by
    the least 32-bit value. *)
Theorem render_output_length (k : read_key) :
  ∃ s,
    render k = Some s ∧
    String.length s =
      (String.length (qname k) + 1 + String.length (Decimal.of_Z (read_no k)))%nat ∧
    (int_range (read_no k) →
     (String.length (qname k) + 2 ≤ String.length s
      ≤ String.length (qname k) + 12)%nat) ∧
    (read_no k = 0%Z → String.length s = (String.length (qname k) + 2)%nat) ∧
    (read_no k = (- 2 ^ 31)%Z →
     String.length s = (String.length (qname k) + 12)%nat).
Proof.
  eexists. split; [apply render_spec|]. unfold rendering.
  rewrite !append_length. change (String.length "/") with 1%nat.
  split; [lia|]. split; [intros Hn%of_Z_length; lia|].
  split; intros ->.
  - change (Decimal.of_Z 0) with "0". cbn [String.length]. lia.
  - change (Decimal.of_Z (- 2 ^ 31)) with "-2147483648". cbn [String.length]. lia.
Qed.

Lemma render_output_length_witness :
  int_range 2147483647 ∧
  ∃ s, render (ReadKey "q" 2147483647) = Some s ∧
       (String.length "q" + 2 ≤ String.length s ≤ String.length "q" + 12)%nat.
Proof.
  assert (Hrange : int_range 2147483647) by (unfold int_range; lia).
  split; [exact Hrange|].
  destruct (render_output_length (ReadKey "q" 2147483647))
    as (s & Hs & _ & Hbounds & _).
  exists s. split; [exact Hs|]. exact (Hbounds Hrange).
Defined.

(** X5. The operator writes nothing after the read number, so keys written
    one after the other into a string stream run together: a key with read
    number [n] followed by a key whose query name starts with the digit [d]
    gives the same text as the key with read number [10 n + d] followed by
    the second key without that digit. *)
Theorem chained_keys_run_together
    (w : world) (a b a' b' : addr) (q1 q2 : string) (n m d : Z) :
  keys w !! a = Some (ReadKey q1 n) →
  keys w !! b = Some (ReadKey (String (Decimal.digit (Z.to_N d)) q2) m) →
  keys w !! a' = Some (ReadKey q1 (10 * n + d)) →
  keys w !! b' = Some (ReadKey q2 m) →
  (0 < n)%Z → (0 ≤ d < 10)%Z →
  ∃ s w',
    render_pair_at a b w = Some (s, w') ∧
    render_pair_at a' b' w = Some (s, w') ∧
    s = q1 +:+ "/" +:+ Decimal.of_Z n
        +:+ String (Decimal.digit (Z.to_N d)) q2 +:+ "/" +:+ Decimal.of_Z m.
Proof.
  intros Ha Hb Ha' Hb' Hn Hd.
  assert (Heq : rendering (ReadKey q1 (10 * n + d)) +:+ rendering (ReadKey q2 m)
                = rendering (ReadKey q1 n)
                  +:+ rendering (ReadKey (String (Decimal.digit (Z.to_N d)) q2) m)).
  { unfold rendering. cbn [qname read_no].
    rewrite of_Z_snoc by done. by rewrite !append_assoc. }
  do 2 eexists. split; [by apply render_pair_at_spec|].
  split.
  - rewrite (render_pair_at_spec _ _ _ _ _ Ha' Hb'). by rewrite Heq.
  - unfold rendering. cbn [qname read_no]. by rewrite !append_assoc.
Qed.

Lemma chained_keys_run_together_witness :
  ∃ s w',
    render_pair_at 1%positive 2%positive run_together_world = Some (s, w') ∧
    render_pair_at 3%positive 4%positive run_together_world = Some (s, w') ∧
    s = "r/12x/0".
Proof.
  apply (chained_keys_run_together run_together_world
           1%positive 2%positive 3%positive 4%positive "r" "x" 1 0 2);
    [reflexivity..|lia|lia].
Defined.
